(** * Richards flow PK: residual, preconditioner update and error norm

    Shallow embedding of [Richards::fun], [Richards::update_precon],
    [Richards::enorm] (src/src/field_models/eos/eos_constant.hh) and of
    [EOSConstant]'s density functions.

    Doubles are modelled as exact rationals [Q]; a C++ [double] comparison
    [==] becomes [Qeq_bool].  The error norm is modelled on one process
    rank: the [MPI_Allreduce] with [MPI_MAX] over a single rank returns its
    input.  The field-evaluator system (lazy recomputation of derived fields
    such as water content and its pressure derivative) and the MFD operator
    are external collaborators; they appear as Section variables. *)

From Stdlib Require Import String.
From Stdlib Require Import QArith Qminmax Qabs Lqa List Lia Arith.
Import ListNotations.
Open Scope Q_scope.

(** ** Data model *)

(** A [TreeVector] holding one [CompositeVector] with a "cell" and a
    "face" component. *)
Record TreeVector := mkTV { cell : list Q ; face : list Q }.

(** A state snapshot ([S_inter_] or [S_next_]): its time and the primary
    variable (pressure).  Derived fields are obtained from the field
    evaluators below. *)
Record Snapshot := mkSnapshot { time : Q ; pressure : TreeVector }.

(** The members of [Richards] read or written by [enorm]. *)
Record Richards := mkRichards {
  continuation_to_ss_ : bool ;
  atol0_ : Q ; rtol0_ : Q ;
  atol_ : Q ; rtol_ : Q }.

(** ** Equation of state: [EOSConstant] *)

Record EOSConstant := mkEOSConstant { M_ : Q ; rho_ : Q }.

(** [virtual double Density(double T, double p) { return rho_/M_; }] *)
Definition Density (eos : EOSConstant) (T p : Q) : Q := rho_ eos / M_ eos.
(** [virtual double DDensityDT(double T, double p) { return 0.0; }] *)
Definition DDensityDT (eos : EOSConstant) (T p : Q) : Q := 0.
(** [virtual double DDensityDp(double T, double p) { return 0.0; }] *)
Definition DDensityDp (eos : EOSConstant) (T p : Q) : Q := 0.

(** A [Teuchos::ParameterList] holding [double] parameters, as an
    association list; the first entry with a name is the one read. *)
Definition ParameterList := list (string * Q).

Fixpoint plist_lookup (pl : ParameterList) (name : string) : option Q :=
  match pl with
  | [] => None
  | (k, v) :: rest => if String.eqb k name then Some v else plist_lookup rest name
  end.

(** [plist.get<double>(name, default)]: the parameter when present, the
    default otherwise.  (Teuchos also records the default in the list;
    nothing in these sources reads it back.) *)
Definition plist_get_default (pl : ParameterList) (name : string) (d : Q) : Q :=
  match plist_lookup pl name with
  | Some v => v
  | None => d
  end.

(** [EOSConstant::InitializeFromPlist_] (with the constructor):
    [if (isParameter("Molar mass [kg/mol]")) M_ = get("Molar mass [kg/mol]");
     else M_ = get("Molar mass [g/mol]", 18.0153) * 1.e-3;
     if (isParameter("Density [mol/m^3]")) rho_ = get("Density [mol/m^3]") * M_;
     else rho_ = get("Density [kg/m^3]", 1000.0);] *)
Definition InitializeFromPlist_ (eos_plist : ParameterList) : EOSConstant :=
  let M :=
    match plist_lookup eos_plist "Molar mass [kg/mol]"%string with
    | Some m => m
    | None => plist_get_default eos_plist "Molar mass [g/mol]"%string 18.0153 * 1e-3
    end in
  let rho :=
    match plist_lookup eos_plist "Density [mol/m^3]"%string with
    | Some d => d * M
    | None => plist_get_default eos_plist "Density [kg/m^3]"%string 1000.0
    end in
  mkEOSConstant M rho.

(** ** Small list helpers *)

(** [v[c] = f(v[c])] for a [std::vector<double>]; out of range the C++
    access is undefined, here it leaves the vector unchanged. *)
Fixpoint upd_nth (c : nat) (f : Q -> Q) (v : list Q) : list Q :=
  match v, c with
  | [], _ => []
  | x :: xs, O => f x :: xs
  | x :: xs, S c' => x :: upd_nth c' f xs
  end.

(** [CompositeVector::PutScalar(0.0)]: every entry set to 0. *)
Definition put_scalar0 (v : list Q) : list Q := map (fun _ => 0) v.

(** Entry-wise [a += b] on a component, keeping the shape of [a]. *)
Fixpoint vadd (a b : list Q) : list Q :=
  match a, b with
  | x :: xs, y :: ys => (x + y) :: vadd xs ys
  | _, _ => a
  end.

Section Richards_PK.

(** Field evaluators of the constitutive-model layer: water content and its
    derivative with respect to pressure, as functions of the primary
    variable ([HasFieldChanged] / [HasFieldDerivativeChanged] recompute them
    lazily; reading them afterwards yields these values). *)
Variable wc_eval : TreeVector -> list Q.
Variable dwc_eval : TreeVector -> list Q.

(** [S->GetFieldData("water_content")] after [HasFieldChanged]. *)
Definition water_content (S : Snapshot) : list Q := wc_eval (pressure S).
(** [S->GetFieldData("dwater_content_d"+key_)] after
    [HasFieldDerivativeChanged]. *)
Definition dwater_content_dp (S : Snapshot) : list Q := dwc_eval (pressure S).

(** [solution_to_state(u, S)]: pointer-copy the solution into the state. *)
Definition solution_to_state (u : TreeVector) (S : Snapshot) : Snapshot :=
  mkSnapshot (time S) u.

(** ** [Richards::enorm] *)

(** The tolerance update at the head of [enorm]:
    [atol_ = atol0_ + 1.e5*atol0_/(1.0 + S_next_->time())] and likewise
    for [rtol_], when [continuation_to_ss_] is set. *)
Definition enorm_update_tols (pk : Richards) (S_next : Snapshot) : Richards :=
  if continuation_to_ss_ pk then
    mkRichards (continuation_to_ss_ pk) (atol0_ pk) (rtol0_ pk)
      (atol0_ pk + 1e5 * atol0_ pk / (1 + time S_next))
      (rtol0_ pk + 1e5 * rtol0_ pk / (1 + time S_next))
  else pk.

(** [abs(h*res("cell",c)) / (atol_+rtol_*abs(wc("cell",c)))] *)
Definition cell_err (h atol rtol wcc r : Q) : Q :=
  Qabs (h * r) / (atol + rtol * Qabs wcc).

(** The cell loop:
    [for (int c=0; c!=ncells; ++c) enorm_cell = max(enorm_cell, tmp);]
    [c] is the index of the head of [res] in the cell component. *)
Fixpoint enorm_cell_loop (h atol rtol : Q) (wc : list Q) (res : list Q)
    (c : nat) (enorm_cell : Q) : Q :=
  match res with
  | [] => enorm_cell
  | r :: rs =>
      enorm_cell_loop h atol rtol wc rs (S c)
        (Qmax enorm_cell (cell_err h atol rtol (nth c wc 0) r))
  end.

(** [Richards::enorm(u, du)]: returns the norm and the PK with its updated
    tolerances.  [u] is not read by the source. *)
Definition enorm (pk : Richards) (S_inter S_next : Snapshot)
    (u du : TreeVector) : Q * Richards :=
  let pk' := enorm_update_tols pk S_next in
  let wc := water_content S_next in
  let res := du in
  let h := time S_next - time S_inter in
  let enorm_cell := enorm_cell_loop h (atol_ pk') (rtol_ pk') wc (cell res) 0 0 in
  (* the face loop is commented out in the source *)
  let enorm_face := 0 in
  let enorm_val := Qmax enorm_face enorm_cell in
  (enorm_val, pk').

(** ** [Richards::fun]: the residual *)

(** Divergence of the (rel-perm weighted, gravity augmented) Darcy flux
    assembled by the MFD operator from the fields of a snapshot and the
    boundary values computed at its time (external collaborator). *)
Variable div_flux : Snapshot -> TreeVector.

(** Modelled from the spec: [ApplyDiffusion_] (not in the sources) adds the
    implicit diffusive flux term, evaluated on [S_next_], to the residual. *)
Definition ApplyDiffusion_ (S : Snapshot) (res : TreeVector) : TreeVector :=
  mkTV (vadd (cell res) (cell (div_flux S)))
       (vadd (face res) (face (div_flux S))).

(** [(wc_new - wc_old)/h] per cell. *)
Fixpoint accumulation_term (h : Q) (wc1 wc0 : list Q) : list Q :=
  match wc1, wc0 with
  | w1 :: ws1, w0 :: ws0 => (w1 - w0) / h :: accumulation_term h ws1 ws0
  | _, _ => []
  end.

(** Modelled from the spec: [AddAccumulation_] (not in the sources) adds
    the discrete time derivative of water content, [(wc_new - wc_old)/h],
    to the cell component of the residual. *)
Definition AddAccumulation_ (h : Q) (S_inter S_next : Snapshot)
    (res : TreeVector) : TreeVector :=
  mkTV (vadd (cell res)
             (accumulation_term h (water_content S_next) (water_content S_inter)))
       (face res).

(** [Richards::fun(t_old, t_new, u_old, u_new, g)]: [None] when one of the
    two [ASSERT]s fails; otherwise the residual written into [g] and the
    updated [S_next_]. *)
Definition Richards_fun (t_old t_new : Q) (S_inter S_next : Snapshot)
    (u_old u_new g : TreeVector) : option (TreeVector * Snapshot) :=
  if negb (Qeq_bool (time S_inter) t_old) then None
  else if negb (Qeq_bool (time S_next) t_new) then None
  else
    let h := t_new - t_old in
    let S_next' := solution_to_state u_new S_next in
    (* res->PutScalar(0.0) *)
    let res := mkTV (put_scalar0 (cell g)) (put_scalar0 (face g)) in
    let res := ApplyDiffusion_ S_next' res in
    let res := AddAccumulation_ h S_inter S_next' res in
    Some (res, S_next').

(** ** [Richards::update_precon] *)

(** The preconditioner's storage touched here: the cell-cell accumulation
    diagonal [Acc_cells], the cell right-hand side [Fc_cells], and the rest
    of the block operator. *)
Record PState := mkPState {
  Acc_cells : list Q ; Fc_cells : list Q ; other_blocks : list Q }.

(** [CreateMFDstiffnessMatrices(rel_perm)], [CreateMFDrhsVectors()] and
    [AddGravityFluxes_] on the snapshot whose rel perm was refreshed by
    [UpdatePermeabilityData_] (external collaborator). *)
Variable CreateMFD : Snapshot -> PState -> PState.
(** [ApplyBoundaryConditions] and, when [assemble_preconditioner_] is set,
    assembly and Schur complement (external collaborator). *)
Variable ApplyBC : PState -> PState.

(** [for (int c=0; c!=dwc_dp->size("cell"); ++c) {
      Acc_cells[c] += dwc_dp[c] / h;
      Fc_cells[c] += pres[c] * dwc_dp[c] / h; }] *)
Fixpoint precon_acc_loop (h : Q) (pres : list Q) (dwc : list Q) (c : nat)
    (P : PState) : PState :=
  match dwc with
  | [] => P
  | d :: ds =>
      precon_acc_loop h pres ds (S c)
        (mkPState (upd_nth c (fun a => a + d / h) (Acc_cells P))
                  (upd_nth c (fun f => f + nth c pres 0 * d / h) (Fc_cells P))
                  (other_blocks P))
  end.

(** [Richards::update_precon(t, up, h)]: [None] when the [ASSERT] fails;
    otherwise the updated preconditioner and [S_next_]. *)
Definition update_precon (t : Q) (S_next : Snapshot) (up : TreeVector)
    (h : Q) (P : PState) : option (PState * Snapshot) :=
  if negb (Qeq_bool (time S_next) t) then None
  else
    let S_next' := solution_to_state up S_next in
    let P1 := CreateMFD S_next' P in
    let dwc_dp := dwater_content_dp S_next' in
    let pres := cell (pressure S_next') in
    let P2 := precon_acc_loop h pres dwc_dp 0 P1 in
    Some (ApplyBC P2, S_next').

End Richards_PK.

(** Modelled from the spec: the operator construction of
    [PreconditionerOperator] ([CreateMFDstiffnessMatrices],
    [CreateMFDrhsVectors]) under the spec's description of the
    preconditioner state, "mutated in place across calls, never reset":
    the stiffness blocks are rebuilt from the snapshot, [Acc_cells] and
    [Fc_cells] are kept. *)
Definition CreateMFD_keep (stiffness : Snapshot -> list Q)
    (S : Snapshot) (P : PState) : PState :=
  mkPState (Acc_cells P) (Fc_cells P) (stiffness S).

(** ** Lemmas on the error norm *)

Lemma Qmax_cases (x y : Q) : Qmax x y = x \/ Qmax x y = y.
Proof.
  unfold Qmax, GenericMinMax.gmax. destruct (x ?= y); auto.
Qed.

Section Enorm_loop.
Variables (h atol rtol : Q) (wc : list Q).

Lemma enorm_cell_loop_ge_acc : forall res c acc,
  acc <= enorm_cell_loop h atol rtol wc res c acc.
Proof.
  induction res as [|r rs IH]; intros c acc; simpl.
  - apply Qle_refl.
  - eapply Qle_trans; [apply Q.le_max_l | apply IH].
Qed.

Lemma enorm_cell_loop_ge_term : forall res c acc k,
  (k < length res)%nat ->
  cell_err h atol rtol (nth (c + k) wc 0) (nth k res 0)
    <= enorm_cell_loop h atol rtol wc res c acc.
Proof.
  induction res as [|r rs IH]; intros c acc k Hk; simpl in *; [lia|].
  destruct k as [|k].
  - rewrite Nat.add_0_r.
    eapply Qle_trans; [apply Q.le_max_r | apply enorm_cell_loop_ge_acc].
  - replace (c + S k)%nat with (S c + k)%nat by lia.
    apply IH; lia.
Qed.

Lemma enorm_cell_loop_attained : forall res c acc,
  enorm_cell_loop h atol rtol wc res c acc = acc \/
  exists k, (k < length res)%nat /\
    enorm_cell_loop h atol rtol wc res c acc
      = cell_err h atol rtol (nth (c + k) wc 0) (nth k res 0).
Proof.
  induction res as [|r rs IH]; intros c acc; simpl; [left; reflexivity|].
  destruct (IH (S c) (Qmax acc (cell_err h atol rtol (nth c wc 0) r)))
    as [E | [k [Hk E]]]; rewrite E.
  - destruct (Qmax_cases acc (cell_err h atol rtol (nth c wc 0) r)) as [M|M];
      rewrite M; [left; reflexivity|].
    right. exists 0%nat. split; [lia|]. rewrite Nat.add_0_r. reflexivity.
  - right. exists (S k). split; [lia|].
    replace (c + S k)%nat with (S c + k)%nat by lia. reflexivity.
Qed.

Lemma enorm_cell_loop_zero : forall res c acc,
  (forall k, (k < length res)%nat ->
     cell_err h atol rtol (nth (c + k) wc 0) (nth k res 0) == 0) ->
  acc == 0 -> enorm_cell_loop h atol rtol wc res c acc == 0.
Proof.
  induction res as [|r rs IH]; intros c acc Hz Hacc; simpl; [exact Hacc|].
  apply IH.
  - intros k Hk. replace (S c + k)%nat with (c + S k)%nat by lia.
    apply (Hz (S k)). simpl; lia.
  - destruct (Qmax_cases acc (cell_err h atol rtol (nth c wc 0) r)) as [M|M];
      rewrite M; [exact Hacc|].
    specialize (Hz 0%nat). rewrite Nat.add_0_r in Hz. apply Hz. simpl; lia.
Qed.

Hypothesis atol_pos : 0 < atol.
Hypothesis rtol_nonneg : 0 <= rtol.

Lemma cell_err_den_pos : forall w, 0 < atol + rtol * Qabs w.
Proof.
  intros w. assert (0 <= rtol * Qabs w).
  { apply Qmult_le_0_compat; [exact rtol_nonneg | apply Qabs_nonneg]. }
  lra.
Qed.

Lemma cell_err_nonneg : forall w r, 0 <= cell_err h atol rtol w r.
Proof.
  intros w r. unfold cell_err, Qdiv. apply Qmult_le_0_compat.
  - apply Qabs_nonneg.
  - apply Qinv_le_0_compat, Qlt_le_weak, cell_err_den_pos.
Qed.

Lemma cell_err_mono : forall w x y,
  Qabs x <= Qabs y -> cell_err h atol rtol w x <= cell_err h atol rtol w y.
Proof.
  intros w x y Hxy. unfold cell_err, Qdiv.
  apply Qmult_le_compat_r.
  - rewrite !Qabs_Qmult. apply Qmult_le_compat_nonneg.
    + split; [apply Qabs_nonneg | apply Qle_refl].
    + split; [apply Qabs_nonneg | exact Hxy].
  - apply Qinv_le_0_compat, Qlt_le_weak, cell_err_den_pos.
Qed.

Lemma enorm_cell_loop_mono : forall res1 res2,
  Forall2 (fun x y => Qabs x <= Qabs y) res1 res2 ->
  forall c acc1 acc2, acc1 <= acc2 ->
  enorm_cell_loop h atol rtol wc res1 c acc1
    <= enorm_cell_loop h atol rtol wc res2 c acc2.
Proof.
  induction 1 as [|x y xs ys Hxy _ IH]; intros c acc1 acc2 Hacc; simpl.
  - exact Hacc.
  - apply IH. apply Q.max_le_compat; [exact Hacc|].
    apply cell_err_mono. exact Hxy.
Qed.

End Enorm_loop.

Lemma cell_err_zero_numerator : forall h atol rtol w x,
  h * x == 0 -> cell_err h atol rtol w x == 0.
Proof.
  intros h atol rtol w x Hx. unfold cell_err, Qdiv. rewrite Hx.
  apply Qmult_0_l.
Qed.

Lemma Qmax_0_of_zero : forall L, L == 0 -> Qmax 0 L == 0.
Proof.
  intros L HL. destruct (Qmax_cases 0 L) as [M|M]; rewrite M;
    [reflexivity | exact HL].
Qed.

Definition tv0 : TreeVector := mkTV [] [].

(** ** Error norm: claims *)

(** C1: with tolerances [atol > 0], [rtol >= 0] (after the continuation
    update) and at least one cell, [enorm] returns the maximum over the cells
    of [|h * du_cell| / (atol + rtol * |wc_cell|)], with [h] the difference of
    the two snapshots' times and [wc] the water content of the new state; the
    face entries of [du] do not contribute; and the scenario h = 1,
    atol = 1e-5, rtol = 1e-4, wc = 10, du = 1e-3 gives 1e-3/1.01e-3 = 100/101. *)
Theorem enorm_cell_infinity_norm :
  forall (wc_eval : TreeVector -> list Q) pk S_inter S_next u du,
  0 < atol_ (enorm_update_tols pk S_next) ->
  0 <= rtol_ (enorm_update_tols pk S_next) ->
  (0 < length (cell du))%nat ->
  (forall k, (k < length (cell du))%nat ->
     cell_err (time S_next - time S_inter) (atol_ (enorm_update_tols pk S_next))
       (rtol_ (enorm_update_tols pk S_next))
       (nth k (water_content wc_eval S_next) 0) (nth k (cell du) 0)
     <= fst (enorm wc_eval pk S_inter S_next u du)) /\
  (exists k, (k < length (cell du))%nat /\
     fst (enorm wc_eval pk S_inter S_next u du)
     == cell_err (time S_next - time S_inter) (atol_ (enorm_update_tols pk S_next))
          (rtol_ (enorm_update_tols pk S_next))
          (nth k (water_content wc_eval S_next) 0) (nth k (cell du) 0)) /\
  (forall f, fst (enorm wc_eval pk S_inter S_next u (mkTV (cell du) f))
             = fst (enorm wc_eval pk S_inter S_next u du)) /\
  (cell_err 1 1e-5 1e-4 10 1e-3 == 1e-3 / 1.01e-3 /\
   fst (enorm (fun _ => [10]) (mkRichards false 1e-5 1e-4 1e-5 1e-4)
          (mkSnapshot 0 tv0) (mkSnapshot 1 tv0) tv0 (mkTV [1e-3] []))
   == 100 # 101).
Proof.
  intros wc_eval pk S_inter S_next u du Ha Hr Hlen.
  unfold enorm; cbv zeta; simpl fst.
  set (a := atol_ (enorm_update_tols pk S_next)) in *.
  set (r := rtol_ (enorm_update_tols pk S_next)) in *.
  set (h := time S_next - time S_inter).
  set (wc := water_content wc_eval S_next).
  set (L := enorm_cell_loop h a r wc (cell du) 0 0).
  assert (HL0 : 0 <= L) by apply enorm_cell_loop_ge_acc.
  assert (HM : Qmax 0 L == L) by (apply Q.max_r; exact HL0).
  split; [|split; [|split]].
  - intros k Hk. rewrite HM.
    apply (enorm_cell_loop_ge_term h a r wc (cell du) 0 0 k Hk).
  - destruct (enorm_cell_loop_attained h a r wc (cell du) 0 0) as [E|[k [Hk E]]].
    + exists 0%nat. split; [exact Hlen|].
      rewrite HM. fold L in E. rewrite E.
      assert (T := enorm_cell_loop_ge_term h a r wc (cell du) 0 0 0 Hlen).
      fold L in T. rewrite E in T.
      assert (T0 := cell_err_nonneg h a r Ha Hr (nth 0 wc 0) (nth 0 (cell du) 0)).
      apply Qle_antisym; [exact T0 | exact T].
    + exists k. split; [exact Hk|]. rewrite HM. fold L in E. rewrite E. reflexivity.
  - intros f. reflexivity.
  - split; vm_compute; reflexivity.
Qed.

Lemma enorm_cell_infinity_norm_witness :
  0 < atol_ (enorm_update_tols (mkRichards false 1e-5 1e-4 1e-5 1e-4) (mkSnapshot 1 tv0)) /\
  0 <= rtol_ (enorm_update_tols (mkRichards false 1e-5 1e-4 1e-5 1e-4) (mkSnapshot 1 tv0)) /\
  Nat.lt 0 (length (cell (mkTV [1e-3; 2e-3] [5]))) /\
  fst (enorm (fun _ => [10; 20]) (mkRichards false 1e-5 1e-4 1e-5 1e-4)
         (mkSnapshot 0 tv0) (mkSnapshot 1 tv0) tv0 (mkTV [1e-3; 2e-3] [5]))
  >= cell_err 1 1e-5 1e-4 10 1e-3.
Proof.
  assert (H1 : 0 < atol_ (enorm_update_tols (mkRichards false 1e-5 1e-4 1e-5 1e-4) (mkSnapshot 1 tv0)))
    by (vm_compute; reflexivity).
  assert (H2 : 0 <= rtol_ (enorm_update_tols (mkRichards false 1e-5 1e-4 1e-5 1e-4) (mkSnapshot 1 tv0)))
    by (vm_compute; discriminate).
  assert (H3 : Nat.lt 0 (length (cell (mkTV [1e-3; 2e-3] [5])))) by (simpl; lia).
  split; [exact H1|]. split; [exact H2|]. split; [exact H3|].
  destruct (enorm_cell_infinity_norm (fun _ => [10; 20])
              (mkRichards false 1e-5 1e-4 1e-5 1e-4) (mkSnapshot 0 tv0)
              (mkSnapshot 1 tv0) tv0 (mkTV [1e-3; 2e-3] [5]) H1 H2 H3)
    as [Hge _].
  exact (Hge 0%nat H3).
Defined.

(** C3 (amended): in continuation mode every call of [enorm] sets
    [atol_ = atol0_ + 1e5 * atol0_ / (1 + t_new)] and
    [rtol_ = rtol0_ + 1e5 * rtol0_ / (1 + t_new)]: the relaxation term is
    1e5 times the nominal tolerance, not a fixed constant. *)
Theorem enorm_continuation_tolerances :
  forall (wc_eval : TreeVector -> list Q) pk S_inter S_next u du,
  continuation_to_ss_ pk = true ->
  atol_ (snd (enorm wc_eval pk S_inter S_next u du))
    = atol0_ pk + 1e5 * atol0_ pk / (1 + time S_next) /\
  rtol_ (snd (enorm wc_eval pk S_inter S_next u du))
    = rtol0_ pk + 1e5 * rtol0_ pk / (1 + time S_next).
Proof.
  intros wc_eval pk S_inter S_next u du Hc.
  unfold enorm, enorm_update_tols. rewrite Hc. split; reflexivity.
Qed.

Lemma enorm_continuation_tolerances_witness :
  continuation_to_ss_ (mkRichards true 1e-5 1e-4 1e-5 1e-4) = true /\
  atol_ (snd (enorm (fun _ => []) (mkRichards true 1e-5 1e-4 1e-5 1e-4)
                (mkSnapshot 8 tv0) (mkSnapshot 9 tv0) tv0 tv0))
    = 1e-5 + 1e5 * 1e-5 / (1 + 9).
Proof.
  split; [reflexivity|].
  apply (enorm_continuation_tolerances (fun _ => [])
           (mkRichards true 1e-5 1e-4 1e-5 1e-4)
           (mkSnapshot 8 tv0) (mkSnapshot 9 tv0) tv0 tv0 eq_refl).
Defined.

(** C3 (counterexample): with atol0 = 1e-5 and t_new = 9 the recomputed
    [atol_] is not [atol0 + K/(1+t_new)] with K = 1e5. *)
Lemma enorm_continuation_K_not_fixed :
  ~ (atol_ (snd (enorm (fun _ => []) (mkRichards true 1e-5 1e-4 1e-5 1e-4)
                   (mkSnapshot 8 tv0) (mkSnapshot 9 tv0) tv0 tv0))
     == 1e-5 + 1e5 / (1 + 9)).
Proof.
  vm_compute. intro H. discriminate H.
Qed.

(** C4 (amended): continuation mode, atol0 = 1e-5, t_new = 9: the
    recomputed absolute tolerance is 1e-5 + 1e5*1e-5/10 = 0.10001. *)
Theorem enorm_continuation_scenario :
  atol_ (snd (enorm (fun _ => []) (mkRichards true 1e-5 1e-4 1e-5 1e-4)
                (mkSnapshot 8 tv0) (mkSnapshot 9 tv0) tv0 tv0))
    == 1e-5 + 1e5 * 1e-5 / 10 /\
  atol_ (snd (enorm (fun _ => []) (mkRichards true 1e-5 1e-4 1e-5 1e-4)
                (mkSnapshot 8 tv0) (mkSnapshot 9 tv0) tv0 tv0))
    == 10001 # 100000.
Proof.
  split; vm_compute; reflexivity.
Qed.

(** C4 (counterexample): in that scenario the recomputed absolute tolerance
    is neither 100.00001 nor close to it (it is off by more than 99). *)
Lemma enorm_continuation_scenario_not_100 :
  ~ (atol_ (snd (enorm (fun _ => []) (mkRichards true 1e-5 1e-4 1e-5 1e-4)
                   (mkSnapshot 8 tv0) (mkSnapshot 9 tv0) tv0 tv0))
     == 100.00001) /\
  99 < Qabs (atol_ (snd (enorm (fun _ => []) (mkRichards true 1e-5 1e-4 1e-5 1e-4)
                           (mkSnapshot 8 tv0) (mkSnapshot 9 tv0) tv0 tv0))
             - 100.00001).
Proof.
  split.
  - vm_compute. intro H. discriminate H.
  - vm_compute. reflexivity.
Qed.

(** C8: [enorm] is non-negative for every input; it is 0 when every cell
    entry of [du] is 0; and, with [atol > 0] and [rtol >= 0], it does not
    decrease when the cell entries of [du] grow in absolute value. *)
Theorem enorm_nonneg_zero_monotone :
  forall (wc_eval : TreeVector -> list Q),
  (forall pk S_inter S_next u du,
     0 <= fst (enorm wc_eval pk S_inter S_next u du)) /\
  (forall pk S_inter S_next u du,
     Forall (fun x => x == 0) (cell du) ->
     fst (enorm wc_eval pk S_inter S_next u du) == 0) /\
  (forall pk S_inter S_next u du1 du2,
     0 < atol_ (enorm_update_tols pk S_next) ->
     0 <= rtol_ (enorm_update_tols pk S_next) ->
     Forall2 (fun x y => Qabs x <= Qabs y) (cell du1) (cell du2) ->
     fst (enorm wc_eval pk S_inter S_next u du1)
       <= fst (enorm wc_eval pk S_inter S_next u du2)).
Proof.
  intros wc_eval. split; [|split].
  - intros. unfold enorm; simpl fst. apply Q.le_max_l.
  - intros pk S_inter S_next u du Hz. unfold enorm; simpl fst.
    apply Qmax_0_of_zero. apply enorm_cell_loop_zero; [|reflexivity].
    intros k Hk. apply cell_err_zero_numerator.
    rewrite Forall_nth in Hz. rewrite (Hz k 0 Hk). apply Qmult_0_r.
  - intros pk S_inter S_next u du1 du2 Ha Hr H12. unfold enorm; simpl fst.
    apply Q.max_le_compat; [apply Qle_refl|].
    apply enorm_cell_loop_mono; [exact Ha | exact Hr | exact H12 | apply Qle_refl].
Qed.

(** C10: [h] is the difference of the two snapshots' times; when they are
    equal, [enorm] returns 0 (so at most 1, "acceptable") whatever [du]. *)
Theorem enorm_zero_step :
  forall (wc_eval : TreeVector -> list Q) pk S_inter S_next u du,
  time S_next == time S_inter ->
  fst (enorm wc_eval pk S_inter S_next u du) == 0 /\
  fst (enorm wc_eval pk S_inter S_next u du) <= 1.
Proof.
  intros wc_eval pk S_inter S_next u du Ht.
  assert (Z : fst (enorm wc_eval pk S_inter S_next u du) == 0).
  { unfold enorm; simpl fst.
    apply Qmax_0_of_zero. apply enorm_cell_loop_zero; [|reflexivity].
    intros k Hk. apply cell_err_zero_numerator.
    assert (Hh : time S_next - time S_inter == 0) by lra.
    rewrite Hh. apply Qmult_0_l. }
  split; [exact Z|]. rewrite Z. discriminate.
Qed.

Lemma enorm_zero_step_witness :
  time (mkSnapshot 3 tv0) == time (mkSnapshot 3 tv0) /\
  fst (enorm (fun _ => [10]) (mkRichards false 1e-5 1e-4 1e-5 1e-4)
         (mkSnapshot 3 tv0) (mkSnapshot 3 tv0) tv0 (mkTV [1e6] [])) == 0.
Proof.
  assert (Ht : time (mkSnapshot 3 tv0) == time (mkSnapshot 3 tv0))
    by reflexivity.
  split; [exact Ht|].
  apply (enorm_zero_step (fun _ => [10]) (mkRichards false 1e-5 1e-4 1e-5 1e-4)
           (mkSnapshot 3 tv0) (mkSnapshot 3 tv0) tv0 (mkTV [1e6] []) Ht).
Defined.

(** ** Equation of state: claims *)

(** C9: [EOSConstant]'s density is the same constant [rho_/M_] at every
    [(T, p)], both derivatives are 0, and 0 is what a centred finite
    difference of [Density] gives in [T] and in [p], at every step size. *)
Theorem eos_constant_density_consistent :
  forall (eos : EOSConstant) (T p T' p' : Q),
  Density eos T p = rho_ eos / M_ eos /\
  Density eos T p = Density eos T' p' /\
  DDensityDT eos T p = 0 /\ DDensityDp eos T p = 0 /\
  (forall d, (Density eos (T + d) p - Density eos (T - d) p) / (2 * d)
             == DDensityDT eos T p) /\
  (forall d, (Density eos T (p + d) - Density eos T (p - d)) / (2 * d)
             == DDensityDp eos T p).
Proof.
  intros eos T p T' p'.
  repeat split; intros d; unfold Density, DDensityDT, DDensityDp, Qminus, Qdiv;
    rewrite Qplus_opp_r; apply Qmult_0_l.
Qed.

(** ** Lemmas on the preconditioner update *)

Lemma length_upd_nth : forall c f v, length (upd_nth c f v) = length v.
Proof.
  intros c f v. revert c. induction v as [|x xs IH]; intros [|c]; simpl; auto.
Qed.

Lemma nth_upd_nth : forall v c f i, (i < length v)%nat ->
  nth i (upd_nth c f v) 0 = if (i =? c)%nat then f (nth i v 0) else nth i v 0.
Proof.
  induction v as [|x xs IH]; intros c f i Hi; simpl in *; [lia|].
  destruct c as [|c], i as [|i]; simpl; try reflexivity.
  rewrite IH by lia. reflexivity.
Qed.

Ltac nat_cases :=
  repeat match goal with
  | |- context [(?a <=? ?b)%nat] => destruct (Nat.leb_spec a b)
  | |- context [(?a <? ?b)%nat] => destruct (Nat.ltb_spec a b)
  | |- context [(?a =? ?b)%nat] => destruct (Nat.eqb_spec a b)
  end; simpl; try lia; try reflexivity.

Section Precon_loop.
Variables (h : Q) (pres : list Q).

Lemma precon_acc_loop_other : forall ds c P,
  other_blocks (precon_acc_loop h pres ds c P) = other_blocks P /\
  length (Acc_cells (precon_acc_loop h pres ds c P)) = length (Acc_cells P) /\
  length (Fc_cells (precon_acc_loop h pres ds c P)) = length (Fc_cells P).
Proof.
  induction ds as [|d ds IH]; intros c P; simpl; [auto|].
  destruct (IH (S c) (mkPState (upd_nth c (fun a => a + d / h) (Acc_cells P))
                        (upd_nth c (fun f => f + nth c pres 0 * d / h) (Fc_cells P))
                        (other_blocks P))) as [E1 [E2 E3]].
  rewrite E1, E2, E3. simpl. rewrite !length_upd_nth. auto.
Qed.

Lemma precon_acc_loop_nth : forall ds c P i,
  (i < length (Acc_cells P))%nat -> (i < length (Fc_cells P))%nat ->
  nth i (Acc_cells (precon_acc_loop h pres ds c P)) 0
    = (if (c <=? i)%nat && (i <? c + length ds)%nat
       then nth i (Acc_cells P) 0 + nth (i - c) ds 0 / h
       else nth i (Acc_cells P) 0) /\
  nth i (Fc_cells (precon_acc_loop h pres ds c P)) 0
    = (if (c <=? i)%nat && (i <? c + length ds)%nat
       then nth i (Fc_cells P) 0 + nth i pres 0 * nth (i - c) ds 0 / h
       else nth i (Fc_cells P) 0).
Proof.
  induction ds as [|d ds IH]; intros c P i HA HF; simpl.
  - split; nat_cases.
  - destruct (IH (S c) (mkPState (upd_nth c (fun a => a + d / h) (Acc_cells P))
                          (upd_nth c (fun f => f + nth c pres 0 * d / h) (Fc_cells P))
                          (other_blocks P)) i)
      as [EA EF]; simpl; try (rewrite length_upd_nth; assumption).
    rewrite EA, EF. cbn [Acc_cells Fc_cells length].
    rewrite !nth_upd_nth by assumption.
    split; nat_cases;
      first [ subst; rewrite Nat.sub_diag; reflexivity
            | replace (i - c)%nat with (S (i - S c)) by lia; reflexivity ].
Qed.

Lemma precon_acc_loop_Acc_Fc_only : forall ds c P P',
  Acc_cells P = Acc_cells P' -> Fc_cells P = Fc_cells P' ->
  Acc_cells (precon_acc_loop h pres ds c P) = Acc_cells (precon_acc_loop h pres ds c P') /\
  Fc_cells (precon_acc_loop h pres ds c P) = Fc_cells (precon_acc_loop h pres ds c P').
Proof.
  induction ds as [|d ds IH]; intros c P P' EA EF; simpl; [auto|].
  apply IH; simpl; congruence.
Qed.

End Precon_loop.

(** ** Preconditioner update: claims *)

(** C5: a call [update_precon(t, up, h)] whose [ASSERT] passes runs the
    operator construction, then the accumulation block, then the boundary
    step.  The accumulation block adds [dwc_dp[c] / h] to [Acc_cells[c]]
    and [p[c] * dwc_dp[c] / h] to [Fc_cells[c]] for every cell [c] of
    [dwc_dp], where [dwc_dp] is read from the field evaluator on the updated
    state and [p] is the new pressure [up]; it changes nothing else. *)
Theorem update_precon_adds_accumulation :
  forall (dwc_eval : TreeVector -> list Q) (CreateMFD : Snapshot -> PState -> PState)
         (ApplyBC : PState -> PState) t S_next up h P,
  time S_next == t ->
  let S' := solution_to_state up S_next in
  let P1 := CreateMFD S' P in
  let d := dwater_content_dp dwc_eval S' in
  exists P2,
    update_precon dwc_eval CreateMFD ApplyBC t S_next up h P = Some (ApplyBC P2, S') /\
    other_blocks P2 = other_blocks P1 /\
    length (Acc_cells P2) = length (Acc_cells P1) /\
    length (Fc_cells P2) = length (Fc_cells P1) /\
    forall c, (c < length (Acc_cells P1))%nat -> (c < length (Fc_cells P1))%nat ->
      nth c (Acc_cells P2) 0
        = (if (c <? length d)%nat then nth c (Acc_cells P1) 0 + nth c d 0 / h
           else nth c (Acc_cells P1) 0) /\
      nth c (Fc_cells P2) 0
        = (if (c <? length d)%nat
           then nth c (Fc_cells P1) 0 + nth c (cell up) 0 * nth c d 0 / h
           else nth c (Fc_cells P1) 0).
Proof.
  intros dwc_eval CreateMFD ApplyBC t S_next up h P Ht S' P1 d.
  exists (precon_acc_loop h (cell up) d 0 P1).
  assert (Hb : Qeq_bool (time S_next) t = true) by (apply Qeq_bool_iff; exact Ht).
  split; [unfold update_precon; rewrite Hb; reflexivity|].
  destruct (precon_acc_loop_other h (cell up) d 0 P1) as [E1 [E2 E3]].
  split; [exact E1|]. split; [exact E2|]. split; [exact E3|].
  intros c HA HF.
  destruct (precon_acc_loop_nth h (cell up) d 0 P1 c HA HF) as [EA EF].
  rewrite EA, EF, Nat.sub_0_r. simpl (0 + length d)%nat. split; reflexivity.
Qed.

Lemma update_precon_adds_accumulation_witness :
  time (mkSnapshot 0 tv0) == 0 /\
  exists P2,
    update_precon (fun _ => [2]) (fun _ P => P) (fun P => P) 0 (mkSnapshot 0 tv0)
      (mkTV [3] []) 1 (mkPState [5] [7] [])
      = Some (P2, mkSnapshot 0 (mkTV [3] [])) /\
    other_blocks P2 = [] /\ length (Acc_cells P2) = 1%nat /\
    length (Fc_cells P2) = 1%nat /\
    forall c, (c < 1)%nat -> (c < 1)%nat ->
      nth c (Acc_cells P2) 0
        = (if (c <? 1)%nat then nth c [5] 0 + nth c [2] 0 / 1 else nth c [5] 0) /\
      nth c (Fc_cells P2) 0
        = (if (c <? 1)%nat then nth c [7] 0 + nth c [3] 0 * nth c [2] 0 / 1
           else nth c [7] 0).
Proof.
  assert (Ht : time (mkSnapshot 0 tv0) == 0) by reflexivity.
  split; [exact Ht|].
  apply (update_precon_adds_accumulation (fun _ => [2]) (fun _ P => P) (fun P => P)
           0 (mkSnapshot 0 tv0) (mkTV [3] []) 1 (mkPState [5] [7] []) Ht).
Defined.

(** C2 (amended): [update_precon] adds to [Acc_cells] and [Fc_cells]
    instead of overwriting them.  If the operator construction rebuilds the
    preconditioner state from the snapshot alone, a second direct call
    returns exactly the state of the first.  If the construction and the
    boundary step keep [Acc_cells] and [Fc_cells], as the spec describes the
    preconditioner state, the second call adds [dwc_dp[c]/h] and
    [p[c]*dwc_dp[c]/h] once more: the accumulation contribution is doubled. *)
Theorem update_precon_repeat :
  forall (dwc_eval : TreeVector -> list Q) (CreateMFD : Snapshot -> PState -> PState)
         (ApplyBC : PState -> PState) t S_next up h P,
  time S_next == t ->
  ((forall S P P', CreateMFD S P = CreateMFD S P') ->
   forall P1 S1,
     update_precon dwc_eval CreateMFD ApplyBC t S_next up h P = Some (P1, S1) ->
     update_precon dwc_eval CreateMFD ApplyBC t S1 up h P1 = Some (P1, S1)) /\
  ((forall S P, Acc_cells (CreateMFD S P) = Acc_cells P /\
                Fc_cells (CreateMFD S P) = Fc_cells P) ->
   (forall P, Acc_cells (ApplyBC P) = Acc_cells P /\ Fc_cells (ApplyBC P) = Fc_cells P) ->
   forall P1 S1 P2 S2,
     update_precon dwc_eval CreateMFD ApplyBC t S_next up h P = Some (P1, S1) ->
     update_precon dwc_eval CreateMFD ApplyBC t S1 up h P1 = Some (P2, S2) ->
     forall c, (c < length (dwc_eval up))%nat ->
       (c < length (Acc_cells P))%nat -> (c < length (Fc_cells P))%nat ->
       nth c (Acc_cells P1) 0 = nth c (Acc_cells P) 0 + nth c (dwc_eval up) 0 / h /\
       nth c (Acc_cells P2) 0 = nth c (Acc_cells P1) 0 + nth c (dwc_eval up) 0 / h /\
       nth c (Fc_cells P1) 0
         = nth c (Fc_cells P) 0 + nth c (cell up) 0 * nth c (dwc_eval up) 0 / h /\
       nth c (Fc_cells P2) 0
         = nth c (Fc_cells P1) 0 + nth c (cell up) 0 * nth c (dwc_eval up) 0 / h).
Proof.
  intros dwc_eval CreateMFD ApplyBC t S_next up h P Ht.
  assert (Hb : Qeq_bool (time S_next) t = true) by (apply Qeq_bool_iff; exact Ht).
  split.
  - intros Hfresh P1 S1 E. unfold update_precon in *. rewrite Hb in E.
    simpl in E. injection E as <- <-. simpl. rewrite Hb. simpl.
    rewrite (Hfresh _ (ApplyBC _) P). reflexivity.
  - intros Hkeep Hbc P1 S1 P2 S2 E1 E2 c Hd HA HF.
    unfold update_precon in E1. rewrite Hb in E1. simpl in E1.
    injection E1 as <- <-.
    unfold update_precon in E2. simpl in E2. rewrite Hb in E2. simpl in E2.
    injection E2 as <- <-.
    unfold dwater_content_dp, solution_to_state; cbn [time pressure].
    set (S' := mkSnapshot (time S_next) up).
    set (L1 := precon_acc_loop h (cell up) (dwc_eval up) 0 (CreateMFD S' P)).
    destruct (Hkeep S' P) as [KA KF].
    destruct (precon_acc_loop_other h (cell up) (dwc_eval up) 0 (CreateMFD S' P))
      as [_ [LA LF]].
    fold L1 in LA, LF.
    destruct (Hbc L1) as [BA BF].
    destruct (Hkeep S' (ApplyBC L1)) as [KA2 KF2].
    assert (HA1 : (c < length (Acc_cells (CreateMFD S' P)))%nat) by (rewrite KA; exact HA).
    assert (HF1 : (c < length (Fc_cells (CreateMFD S' P)))%nat) by (rewrite KF; exact HF).
    assert (HA2 : (c < length (Acc_cells (CreateMFD S' (ApplyBC L1))))%nat)
      by (rewrite KA2, BA, LA, KA; exact HA).
    assert (HF2 : (c < length (Fc_cells (CreateMFD S' (ApplyBC L1))))%nat)
      by (rewrite KF2, BF, LF, KF; exact HF).
    destruct (precon_acc_loop_nth h (cell up) (dwc_eval up) 0 _ c HA1 HF1) as [N1A N1F].
    destruct (precon_acc_loop_nth h (cell up) (dwc_eval up) 0 _ c HA2 HF2) as [N2A N2F].
    fold L1 in N1A, N1F.
    destruct (Hbc (precon_acc_loop h (cell up) (dwc_eval up) 0 (CreateMFD S' (ApplyBC L1))))
      as [BA2 BF2].
    rewrite BA2, BF2, BA, BF, N2A, N2F, N1A, N1F, KA2, KF2, BA, BF, KA, KF.
    assert (Hc : ((0 <=? c)%nat && (c <? 0 + length (dwc_eval up))%nat) = true).
    { apply andb_true_intro; split; [apply Nat.leb_le | apply Nat.ltb_lt]; simpl; lia. }
    rewrite Hc, !Nat.sub_0_r, N1A, N1F, Hc, KA, KF, !Nat.sub_0_r.
    repeat split; reflexivity.
Qed.

Lemma update_precon_repeat_witness :
  time (mkSnapshot 0 tv0) == 0 /\
  ((forall S P P', CreateMFD_keep (fun _ => []) S P = CreateMFD_keep (fun _ => []) S P') ->
   forall P1 S1,
     update_precon (fun _ => [1]) (CreateMFD_keep (fun _ => [])) (fun P => P) 0
       (mkSnapshot 0 tv0) (mkTV [1] []) 1 (mkPState [0] [0] []) = Some (P1, S1) ->
     update_precon (fun _ => [1]) (CreateMFD_keep (fun _ => [])) (fun P => P) 0
       S1 (mkTV [1] []) 1 P1 = Some (P1, S1)) /\
  ((forall S P, Acc_cells (CreateMFD_keep (fun _ => []) S P) = Acc_cells P /\
                Fc_cells (CreateMFD_keep (fun _ => []) S P) = Fc_cells P) ->
   (forall P, Acc_cells ((fun P => P) P) = Acc_cells P /\ Fc_cells ((fun P => P) P) = Fc_cells P) ->
   forall P1 S1 P2 S2,
     update_precon (fun _ => [1]) (CreateMFD_keep (fun _ => [])) (fun P => P) 0
       (mkSnapshot 0 tv0) (mkTV [1] []) 1 (mkPState [0] [0] []) = Some (P1, S1) ->
     update_precon (fun _ => [1]) (CreateMFD_keep (fun _ => [])) (fun P => P) 0
       S1 (mkTV [1] []) 1 P1 = Some (P2, S2) ->
     forall c, Nat.lt c (length [1]) ->
       Nat.lt c (length (Acc_cells (mkPState [0] [0] []))) ->
       Nat.lt c (length (Fc_cells (mkPState [0] [0] []))) ->
       nth c (Acc_cells P1) 0 = nth c (Acc_cells (mkPState [0] [0] [])) 0 + nth c [1] 0 / 1 /\
       nth c (Acc_cells P2) 0 = nth c (Acc_cells P1) 0 + nth c [1] 0 / 1 /\
       nth c (Fc_cells P1) 0
         = nth c (Fc_cells (mkPState [0] [0] [])) 0 + nth c (cell (mkTV [1] [])) 0 * nth c [1] 0 / 1 /\
       nth c (Fc_cells P2) 0
         = nth c (Fc_cells P1) 0 + nth c (cell (mkTV [1] [])) 0 * nth c [1] 0 / 1).
Proof.
  assert (Ht : time (mkSnapshot 0 tv0) == 0) by reflexivity.
  split; [exact Ht|].
  apply (update_precon_repeat (fun _ => [1]) (CreateMFD_keep (fun _ => [])) (fun P => P)
           0 (mkSnapshot 0 tv0) (mkTV [1] []) 1 (mkPState [0] [0] []) Ht).
Defined.

(** C2 (counterexample): with the spec's preconditioner state (the operator
    construction [CreateMFD_keep] and a boundary step that keep [Acc_cells]
    and [Fc_cells]), one cell, [dwc_dp = 1], [p = 1], [h = 1] and
    [Acc = Fc = 0], the second of two direct calls leaves [Acc = Fc = 2]
    where the first left 1: the accumulation contribution is doubled. *)
Lemma update_precon_twice_doubles :
  match update_precon (fun _ => [1]) (CreateMFD_keep (fun _ => [])) (fun P => P) 0
          (mkSnapshot 0 tv0) (mkTV [1] []) 1 (mkPState [0] [0] []) with
  | Some (P1, S1) =>
      match update_precon (fun _ => [1]) (CreateMFD_keep (fun _ => [])) (fun P => P) 0
              S1 (mkTV [1] []) 1 P1 with
      | Some (P2, _) =>
          nth 0 (Acc_cells P1) 0 == 1 /\ nth 0 (Acc_cells P2) 0 == 2 /\
          nth 0 (Fc_cells P1) 0 == 1 /\ nth 0 (Fc_cells P2) 0 == 2 /\
          ~ (nth 0 (Acc_cells P2) 0 == nth 0 (Acc_cells P1) 0)
      | None => False
      end
  | None => False
  end.
Proof.
  vm_compute. repeat split; try reflexivity. intro H. discriminate H.
Qed.

(** ** Residual: claims *)

Lemma put_scalar0_length : forall v1 v2,
  length v1 = length v2 -> put_scalar0 v1 = put_scalar0 v2.
Proof.
  induction v1 as [|x xs IH]; intros [|y ys] E; simpl in *;
    try discriminate; [reflexivity|].
  unfold put_scalar0 in *. simpl. f_equal. apply IH. lia.
Qed.

(** C6 (amended): [Richards::fun] stops (its [ASSERT] fails) exactly when
    the old state's time differs from [t_old] or the new state's time
    differs from [t_new]; the step [h = t_new - t_old] is not checked. *)
Theorem Richards_fun_asserts :
  forall (wc_eval : TreeVector -> list Q) (div_flux : Snapshot -> TreeVector)
         t_old t_new S_inter S_next u_old u_new g,
  Richards_fun wc_eval div_flux t_old t_new S_inter S_next u_old u_new g = None
  <-> (~ time S_inter == t_old \/ ~ time S_next == t_new).
Proof.
  intros. unfold Richards_fun.
  destruct (Qeq_bool (time S_inter) t_old) eqn:E1;
  destruct (Qeq_bool (time S_next) t_new) eqn:E2; simpl;
  split; intros H; try discriminate; try reflexivity.
  - apply Qeq_bool_eq in E1. apply Qeq_bool_eq in E2.
    destruct H as [H|H]; contradiction.
  - right. apply Qeq_bool_neq. exact E2.
  - left. apply Qeq_bool_neq. exact E1.
  - left. apply Qeq_bool_neq. exact E1.
Qed.

(** C6 (counterexample): with matching time stamps and a step that is not
    strictly positive (t_old = 2, t_new = 1, and t_old = t_new = 1) the call
    proceeds and returns a residual. *)
Lemma Richards_fun_nonpositive_step_proceeds :
  Richards_fun (fun _ => []) (fun _ => tv0) 2 1 (mkSnapshot 2 tv0) (mkSnapshot 1 tv0)
    tv0 tv0 tv0 <> None /\
  Richards_fun (fun _ => []) (fun _ => tv0) 1 1 (mkSnapshot 1 tv0) (mkSnapshot 1 tv0)
    tv0 tv0 tv0 <> None.
Proof.
  split; vm_compute; discriminate.
Qed.

(** C7: on a call whose [ASSERT]s pass, the residual is [g] zeroed, then
    the diffusion term added, then the accumulation term added; two
    residual vectors of the same shape give the same result whatever
    values they held. *)
Theorem Richards_fun_residual_order :
  forall (wc_eval : TreeVector -> list Q) (div_flux : Snapshot -> TreeVector)
         t_old t_new S_inter S_next u_old u_new g1 g2,
  time S_inter == t_old -> time S_next == t_new ->
  length (cell g1) = length (cell g2) -> length (face g1) = length (face g2) ->
  Richards_fun wc_eval div_flux t_old t_new S_inter S_next u_old u_new g1
    = Some (AddAccumulation_ wc_eval (t_new - t_old) S_inter
              (solution_to_state u_new S_next)
              (ApplyDiffusion_ div_flux (solution_to_state u_new S_next)
                 (mkTV (put_scalar0 (cell g1)) (put_scalar0 (face g1)))),
            solution_to_state u_new S_next) /\
  Richards_fun wc_eval div_flux t_old t_new S_inter S_next u_old u_new g1
    = Richards_fun wc_eval div_flux t_old t_new S_inter S_next u_old u_new g2.
Proof.
  intros wc_eval div_flux t_old t_new S_inter S_next u_old u_new g1 g2 H1 H2 Lc Lf.
  unfold Richards_fun.
  assert (B1 : Qeq_bool (time S_inter) t_old = true) by (apply Qeq_bool_iff; exact H1).
  assert (B2 : Qeq_bool (time S_next) t_new = true) by (apply Qeq_bool_iff; exact H2).
  rewrite B1, B2. simpl. split; [reflexivity|].
  rewrite (put_scalar0_length _ _ Lc), (put_scalar0_length _ _ Lf). reflexivity.
Qed.

Lemma Richards_fun_residual_order_witness :
  Richards_fun (fun _ => [4]) (fun _ => mkTV [1] [2]) 0 1 (mkSnapshot 0 tv0)
    (mkSnapshot 1 tv0) tv0 tv0 (mkTV [5] [6])
  = Richards_fun (fun _ => [4]) (fun _ => mkTV [1] [2]) 0 1 (mkSnapshot 0 tv0)
    (mkSnapshot 1 tv0) tv0 tv0 (mkTV [7] [8]).
Proof.
  assert (H1 : time (mkSnapshot 0 tv0) == 0) by reflexivity.
  assert (H2 : time (mkSnapshot 1 tv0) == 1) by reflexivity.
  destruct (Richards_fun_residual_order (fun _ => [4]) (fun _ => mkTV [1] [2]) 0 1
              (mkSnapshot 0 tv0) (mkSnapshot 1 tv0) tv0 tv0 (mkTV [5] [6]) (mkTV [7] [8])
              H1 H2 eq_refl eq_refl) as [_ E].
  exact E.
Defined.

(** * Further properties of the code *)

(** ** [EOSConstant::InitializeFromPlist_] *)

(** With none of the four parameters in the list, the equation of state
    defaults to water: [M_ = 18.0153e-3] kg/mol, [rho_ = 1000] kg/m^3, and
    [Density] returns [1000 / 0.0180153] mol/m^3 at every [(T, p)]. *)
Theorem eos_plist_defaults : forall pl,
  plist_lookup pl "Molar mass [kg/mol]"%string = None ->
  plist_lookup pl "Molar mass [g/mol]"%string = None ->
  plist_lookup pl "Density [mol/m^3]"%string = None ->
  plist_lookup pl "Density [kg/m^3]"%string = None ->
  M_ (InitializeFromPlist_ pl) == 0.0180153 /\
  rho_ (InitializeFromPlist_ pl) == 1000 /\
  forall T p, Density (InitializeFromPlist_ pl) T p == 1000 / 0.0180153.
Proof.
  intros pl H1 H2 H3 H4.
  unfold Density, InitializeFromPlist_, plist_get_default.
  rewrite H1, H2, H3, H4. cbn [M_ rho_].
  split; [|split; [|intros T p]]; vm_compute; reflexivity.
Qed.

Lemma eos_plist_defaults_witness :
  M_ (InitializeFromPlist_ [("Viscosity"%string, 1)]) == 0.0180153.
Proof.
  exact (proj1 (eos_plist_defaults [("Viscosity"%string, 1)]
                 eq_refl eq_refl eq_refl eq_refl)).
Defined.


(** Giving the molar mass in g/mol or the same value in kg/mol (times
    1e-3) yields the same equation of state, when no kg/mol value is
    already in the list. *)
Theorem eos_plist_molar_mass_units : forall pl m,
  plist_lookup pl "Molar mass [kg/mol]"%string = None ->
  InitializeFromPlist_ (("Molar mass [g/mol]"%string, m) :: pl)
  = InitializeFromPlist_ (("Molar mass [kg/mol]"%string, m * 1e-3) :: pl).
Proof.
  intros pl m H. unfold InitializeFromPlist_, plist_get_default.
  simpl. rewrite H. reflexivity.
Qed.

Lemma eos_plist_molar_mass_units_witness :
  InitializeFromPlist_ [("Molar mass [g/mol]"%string, 20); ("Density [mol/m^3]"%string, 5)]
  = InitializeFromPlist_ [("Molar mass [kg/mol]"%string, 20 * 1e-3); ("Density [mol/m^3]"%string, 5)].
Proof.
  apply (eos_plist_molar_mass_units [("Density [mol/m^3]"%string, 5)] 20).
  reflexivity.
Defined.

(** ** [Richards::enorm]: tolerance state and norm properties *)

Lemma enorm_update_tols_idem : forall pk S,
  enorm_update_tols (enorm_update_tols pk S) S = enorm_update_tols pk S.
Proof.
  intros [[] a0 r0 a r] S; reflexivity.
Qed.

(** Calling [enorm] again with the PK state it left behind gives the same
    norm and the same state: in continuation mode the tolerances are
    recomputed from [atol0_]/[rtol0_], so they do not compound; the flag and
    the nominal tolerances are never changed, and with continuation off the
    PK state is left as it was. *)
Theorem enorm_repeat_stable :
  forall (wc_eval : TreeVector -> list Q) pk S_inter S_next u du,
  enorm wc_eval (snd (enorm wc_eval pk S_inter S_next u du)) S_inter S_next u du
    = enorm wc_eval pk S_inter S_next u du /\
  continuation_to_ss_ (snd (enorm wc_eval pk S_inter S_next u du)) = continuation_to_ss_ pk /\
  atol0_ (snd (enorm wc_eval pk S_inter S_next u du)) = atol0_ pk /\
  rtol0_ (snd (enorm wc_eval pk S_inter S_next u du)) = rtol0_ pk /\
  (continuation_to_ss_ pk = false -> snd (enorm wc_eval pk S_inter S_next u du) = pk).
Proof.
  intros wc_eval pk S_inter S_next u du. unfold enorm. cbn [snd].
  rewrite enorm_update_tols_idem.
  destruct pk as [[] a0 r0 a r]; repeat split; try reflexivity; discriminate.
Qed.

Lemma continuation_term_decay : forall a t1 t2,
  0 <= a -> 0 <= t1 -> t1 <= t2 ->
  a <= a + 1e5 * a / (1 + t2) /\
  a + 1e5 * a / (1 + t2) <= a + 1e5 * a / (1 + t1).
Proof.
  intros a t1 t2 Ha H1 H12.
  set (x := 1e5 * a).
  assert (Hx : 0 <= x)
    by (unfold x; apply Qmult_le_0_compat; [vm_compute; discriminate | exact Ha]).
  assert (P1 : 0 < 1 + t1) by lra.
  assert (P2 : 0 < 1 + t2) by lra.
  assert (D2 : 0 <= x / (1 + t2)) by (apply Qle_shift_div_l; [exact P2 | lra]).
  set (y := x / (1 + t1)).
  assert (Dy : 0 <= y) by (apply Qle_shift_div_l; [exact P1 | lra]).
  assert (Ey : y * (1 + t1) == x).
  { unfold y. rewrite Qmult_comm. apply Qmult_div_r.
    intro E. rewrite E in P1. discriminate P1. }
  assert (Le : x / (1 + t2) <= y).
  { apply Qle_shift_div_r; [exact P2|].
    assert (0 <= y * (t2 - t1)) by (apply Qmult_le_0_compat; lra).
    lra. }
  split; lra.
Qed.

(** In continuation mode, with non-negative nominal tolerances and
    non-negative times, the tolerances [enorm] uses are never below the
    nominal ones and do not increase as the new state's time grows. *)
Theorem enorm_continuation_decay :
  forall (wc_eval : TreeVector -> list Q) pk S_inter S1 S2 u du,
  continuation_to_ss_ pk = true -> 0 <= atol0_ pk -> 0 <= rtol0_ pk ->
  0 <= time S1 -> time S1 <= time S2 ->
  atol0_ pk <= atol_ (snd (enorm wc_eval pk S_inter S2 u du)) /\
  atol_ (snd (enorm wc_eval pk S_inter S2 u du))
    <= atol_ (snd (enorm wc_eval pk S_inter S1 u du)) /\
  rtol0_ pk <= rtol_ (snd (enorm wc_eval pk S_inter S2 u du)) /\
  rtol_ (snd (enorm wc_eval pk S_inter S2 u du))
    <= rtol_ (snd (enorm wc_eval pk S_inter S1 u du)).
Proof.
  intros wc_eval pk S_inter S1 S2 u du Hc Ha Hr H1 H12.
  unfold enorm, enorm_update_tols. rewrite Hc. cbn [snd atol_ rtol_].
  destruct (continuation_term_decay (atol0_ pk) _ _ Ha H1 H12) as [A1 A2].
  destruct (continuation_term_decay (rtol0_ pk) _ _ Hr H1 H12) as [R1 R2].
  repeat split; assumption.
Qed.

Lemma enorm_continuation_decay_witness :
  atol_ (snd (enorm (fun _ => []) (mkRichards true 1e-5 1e-4 0 0)
                (mkSnapshot 0 tv0) (mkSnapshot 100 tv0) tv0 tv0))
  <= atol_ (snd (enorm (fun _ => []) (mkRichards true 1e-5 1e-4 0 0)
                   (mkSnapshot 0 tv0) (mkSnapshot 9 tv0) tv0 tv0)).
Proof.
  refine (proj1 (proj2 (enorm_continuation_decay (fun _ => [])
            (mkRichards true 1e-5 1e-4 0 0) (mkSnapshot 0 tv0)
            (mkSnapshot 9 tv0) (mkSnapshot 100 tv0) tv0 tv0 eq_refl _ _ _ _)));
    vm_compute; discriminate.
Defined.











(** ** Error behaviour of [update_precon] and [fun] *)


